(** * The auth facade of react-native-firebase: src/lib/modules/auth/index.js

    A shallow embedding of the [Auth] class: the cached auth state, the
    handler of the bridge's [listenForAuth] events, the listener registry
    and the forwarding operations, with the properties the specification
    states about them. *)

From stdpp Require Import gmap strings list fin_maps.

(** ** Data model *)

(** A plain JS object with string-valued properties: the bridge's user
    payload, a profile update, a native response. *)
Definition JsObject : Type := list (string * string).

(** [type AuthResultType = { authenticated: boolean, user: Object|null }].
    [None] stands for a property that is null, undefined or missing. *)
Module AuthResult.
Record t : Type := mk {
  authenticated : option bool;
  user : option JsObject
}.
End AuthResult.
Abbreviation AuthResultType := AuthResult.t.

(** [type CredentialType = { provider: string, token: string, secret: string }] *)
Record CredentialType : Type := {
  provider : string;
  token : string;
  secret : string
}.

(** Objects live in a store and are referred to by address, so that two
    references to one [User] see the same updates. *)
Definition loc : Type := nat.

(** Modelled from the spec: the [User] class of ./user.js, absent from the
    sources.  A thin value object for the current principal, holding the
    [AuthState] it was last given: the constructor stores its argument and
    [_updateValues] replaces it in place. *)
Record User : Type := { _authObj : option AuthResultType }.

Definition User_new (auth : option AuthResultType) : User :=
  {| _authObj := auth |}.

Definition User_updateValues (u : User) (auth : option AuthResultType) : User :=
  {| _authObj := auth |}.

(** Application callbacks are opaque: a listener is a handle, and calling
    it is recorded with the argument it was given. *)
Definition Listener : Type := nat.
Definition Notification : Type := (Listener * option JsObject)%type.

(** One line of [this.log.info]. *)
Definition LogLine : Type := list string.

(** An argument handed to the native module. *)
Inductive Arg : Type :=
  | AStr (s : string)
  | AObj (o : JsObject).

(** What one [promisify(fn, FirebaseAuth, errorPrefix)(...args)] asks of
    the bridge. *)
Record NativeCall : Type := {
  fn : string;
  errorPrefix : option string;
  args : list Arg
}.

(** The error object of the bridge and the settled promise. *)
Record NativeError : Type := { code : string; message : string }.

Inductive Reply : Type :=
  | Success (resp : JsObject)
  | Failure (err : NativeError).

Inductive Promise : Type :=
  | Resolved (resp : JsObject)
  | Rejected (err : NativeError).

(** The native module [NativeModules.FirebaseAuth]: what it answers to a
    method name and its arguments. *)
Definition NativeModule : Type := string -> list Arg -> Reply.

(** The [Auth] instance with what it reaches: its three fields, the
    listener registry and logger it inherits from [Base], the store of
    [User] objects, and the two observable traces: the calls of
    listeners and the calls that [promisify] makes into the bridge. *)
Record World : Type := mkWorld {
  _user : option loc;
  _authResult : option AuthResultType;
  authenticated : bool;
  _listeners : gmap string (list Listener);
  users : gmap loc User;
  notified : list Notification;
  native : list NativeCall;
  log : list LogLine
}.

Definition set_user (v : option loc) (w : World) : World :=
  mkWorld v (_authResult w) (authenticated w) (_listeners w) (users w)
          (notified w) (native w) (log w).
Definition set_authResult (v : option AuthResultType) (w : World) : World :=
  mkWorld (_user w) v (authenticated w) (_listeners w) (users w)
          (notified w) (native w) (log w).
Definition set_authenticated (v : bool) (w : World) : World :=
  mkWorld (_user w) (_authResult w) v (_listeners w) (users w)
          (notified w) (native w) (log w).
Definition set_listeners (v : gmap string (list Listener)) (w : World) : World :=
  mkWorld (_user w) (_authResult w) (authenticated w) v (users w)
          (notified w) (native w) (log w).
Definition set_users (v : gmap loc User) (w : World) : World :=
  mkWorld (_user w) (_authResult w) (authenticated w) (_listeners w) v
          (notified w) (native w) (log w).
Definition set_notified (v : list Notification) (w : World) : World :=
  mkWorld (_user w) (_authResult w) (authenticated w) (_listeners w) (users w)
          v (native w) (log w).
Definition set_native (v : list NativeCall) (w : World) : World :=
  mkWorld (_user w) (_authResult w) (authenticated w) (_listeners w) (users w)
          (notified w) v (log w).
Definition set_log (v : list LogLine) (w : World) : World :=
  mkWorld (_user w) (_authResult w) (authenticated w) (_listeners w) (users w)
          (notified w) (native w) v.

(** ** Statements that may throw *)

Inductive JsException : Type :=
  | TypeError (msg : string).

Inductive Completion (A : Type) : Type :=
  | Normal (a : A)
  | Throw (e : JsException).
Arguments Normal {A} a.
Arguments Throw {A} e.

(** A method body: it changes the world and either returns or throws; what
    it wrote before throwing stays written. *)
Definition M (A : Type) : Type := World -> World * Completion A.

Definition ret {A} (a : A) : M A := fun w => (w, Normal a).
Definition throw {A} (e : JsException) : M A := fun w => (w, Throw e).
Definition bind {A B} (m : M A) (k : A -> M B) : M B :=
  fun w => match m w with
           | (w', Normal a) => k a w'
           | (w', Throw e) => (w', Throw e)
           end.
Definition get : M World := fun w => (w, Normal w).
Definition modify (f : World -> World) : M unit := fun w => (f w, Normal tt).

Notation "'let!' x ':=' m 'in' k" := (bind m (fun x => k))
  (at level 10, x name, m at level 100, k at level 200).
Notation "m >> k" := (bind m (fun _ => k))
  (at level 90, right associativity).

Definition exec {A} (m : M A) (w : World) : World := fst (m w).
Definition completion {A} (m : M A) (w : World) : Completion A := snd (m w).

(** ** What [Auth] inherits from [Base] *)

(** Modelled from the spec: the event emitter and the logger of ./../base,
    absent from the sources.  The registry maps an event name to an
    ordered set of callback handles: [on] puts a handle last unless it is
    there already, [removeListener] takes it out, and [emit] calls the
    handles of the event in registration order, each with the same
    argument. *)
Definition listeners_of (event : string) (w : World) : list Listener :=
  default [] (_listeners w !! event).

Definition on (event : string) (listener : Listener) : M unit :=
  modify (fun w =>
    let ls := listeners_of event w in
    if bool_decide (listener ∈ ls) then w
    else set_listeners (<[event := ls ++ [listener]]> (_listeners w)) w).

Definition removeListener (event : string) (listener : Listener) : M unit :=
  modify (fun w =>
    set_listeners
      (<[event := filter (fun l => l ≠ listener) (listeners_of event w)]>
         (_listeners w)) w).

Definition call_listener (listener : Listener) (arg : option JsObject) : M unit :=
  modify (fun w => set_notified (notified w ++ [(listener, arg)]) w).

Definition emit (event : string) (arg : option JsObject) : M unit :=
  modify (fun w =>
    set_notified
      (notified w ++ map (fun l => (l, arg)) (listeners_of event w)) w).

Definition log_info (line : LogLine) : M unit :=
  modify (fun w => set_log (log w ++ [line]) w).

(** ** The store of [User] objects *)

(** [new User(this, auth)]: a fresh address holding the new object. *)
Definition new_User (auth : option AuthResultType) : M loc :=
  fun w =>
    let p := fresh (dom (users w)) in
    (set_users (<[p := User_new auth]> (users w)) w, Normal p).

(** [p._updateValues(auth)]: the object at [p] is changed where it is. *)
Definition _updateValues (p : loc) (auth : option AuthResultType) : M unit :=
  modify (fun w =>
    set_users (alter (fun u => User_updateValues u auth) p (users w)) w).

(** ** The class *)

(** The constructor: [_user = null], [_authResult = null],
    [authenticated = false]; nothing registered, nothing allocated.  It
    also hands [_onAuthStateChanged] to the native emitter under
    ['listenForAuth'], which is why the events of the bridge reach the
    handler (see [deliver]). *)
Definition constructor : World :=
  mkWorld None None false ∅ ∅ [] [] [].

(** [auth.authenticated || false] on a flag that is a boolean or absent. *)
Definition or_false (flag : option bool) : bool :=
  match flag with
  | Some b => b
  | None => false
  end.

(** [auth && auth.user], read as a condition. *)
Definition has_user (auth : option AuthResultType) : bool :=
  match auth with
  | Some a => bool_decide (is_Some (AuthResult.user a))
  | None => false
  end.

(** [x.user || null] *)
Definition user_or_null (a : AuthResultType) : option JsObject :=
  AuthResult.user a.

(** [_onAuthStateChanged(auth)], lines 41-48.  The last line reads
    [this._authResult.user], which throws a [TypeError] when
    [this._authResult] is null. *)
Definition _onAuthStateChanged (auth : option AuthResultType) : M unit :=
  modify (set_authResult auth) >>
  modify (set_authenticated
            (match auth with
             | Some a => or_false (AuthResult.authenticated a)
             | None => false
             end)) >>
  (let! this := get in
   if has_user auth && negb (bool_decide (is_Some (_user this))) then
     let! p := new_User auth in modify (set_user (Some p))
   else if negb (has_user auth) && bool_decide (is_Some (_user this)) then
     modify (set_user None)
   else
     match _user this with
     | Some p => _updateValues p auth
     | None => ret tt
     end) >>
  (let! this := get in
   match _authResult this with
   | Some r => emit "onAuthStateChanged" (user_or_null r)
   | None => throw (TypeError "Cannot read property 'user' of null")
   end).

(** The value [onAuthStateChanged] returns:
    [this._offAuthStateChanged.bind(this, listener)]. *)
Record Unsubscribe : Type := { bound_listener : Listener }.

(** [_offAuthStateChanged(listener)], lines 69-72. *)
Definition _offAuthStateChanged (listener : Listener) : M unit :=
  log_info ["Removing onAuthStateChanged listener"] >>
  removeListener "onAuthStateChanged" listener.

(** [onAuthStateChanged(listener)], lines 58-63. *)
Definition onAuthStateChanged (listener : Listener) : M Unsubscribe :=
  log_info ["Creating onAuthStateChanged listener"] >>
  on "onAuthStateChanged" listener >>
  (let! this := get in
   match _authResult this with
   | Some r => call_listener listener (user_or_null r)
   | None => ret tt
   end) >>
  ret {| bound_listener := listener |}.

(** Calling the returned function. *)
Definition unsubscribe (u : Unsubscribe) : M unit :=
  _offAuthStateChanged (bound_listener u).

(** [get currentUser()], lines 226-228. *)
Definition currentUser (w : World) : option loc := _user w.

(** [get namespace()] *)
Definition namespace : string := "firebase:auth".

(** ** The forwarding operations *)

Section Forwarding.

(** [const FirebaseAuth = NativeModules.FirebaseAuth] *)
Variable FirebaseAuth : NativeModule.

(** Modelled from the spec: [promisify] of ./../../utils, absent from the
    sources.  One call of the named method of the native module with the
    arguments as given; the promise resolves or rejects exactly as the
    bridge does, with no retry and no transformation. *)
Definition promisify (name : string) (NativeModule : NativeModule)
    (prefix : option string) (arguments : list Arg) : M Promise :=
  modify (fun w =>
    set_native
      (native w ++ [{| fn := name; errorPrefix := prefix; args := arguments |}])
      w) >>
  ret (match NativeModule name arguments with
       | Success resp => Resolved resp
       | Failure err => Rejected err
       end).

Definition createUserWithEmailAndPassword (email password : string) : M Promise :=
  log_info ["Creating user with email and password"; email] >>
  promisify "createUserWithEmail" FirebaseAuth (Some "auth/")
            [AStr email; AStr password].

Definition signInWithEmailAndPassword (email password : string) : M Promise :=
  log_info ["Signing in user with email and password"; email] >>
  promisify "signInWithEmail" FirebaseAuth (Some "auth/")
            [AStr email; AStr password].

Definition updateEmail (email : string) : M Promise :=
  promisify "updateUserEmail" FirebaseAuth (Some "auth/") [AStr email].

Definition sendEmailVerification : M Promise :=
  promisify "sendEmailVerification" FirebaseAuth (Some "auth/") [].

Definition updatePassword (password : string) : M Promise :=
  promisify "updateUserPassword" FirebaseAuth (Some "auth/") [AStr password].

(** [updates: Object = {}]: an omitted argument is the empty object. *)
Definition updateProfile (updates : option JsObject) : M Promise :=
  promisify "updateUserProfile" FirebaseAuth (Some "auth/")
            [AObj (default [] updates)].

Definition link (credential : CredentialType) : M Promise :=
  promisify "link" FirebaseAuth (Some "auth/")
            [AStr (provider credential); AStr (token credential);
             AStr (secret credential)].

Definition signInWithCustomToken (customToken : string) : M Promise :=
  promisify "signInWithCustomToken" FirebaseAuth None [AStr customToken].

Definition signInWithCredential (credential : CredentialType) : M Promise :=
  promisify "signInWithProvider" FirebaseAuth (Some "auth/")
            [AStr (provider credential); AStr (token credential);
             AStr (secret credential)].

Definition reauthenticateUser (credential : CredentialType) : M Promise :=
  promisify "reauthenticateWithCredentialForProvider" FirebaseAuth (Some "auth/")
            [AStr (provider credential); AStr (token credential);
             AStr (secret credential)].

Definition signInAnonymously : M Promise :=
  promisify "signInAnonymously" FirebaseAuth (Some "auth/") [].

Definition sendPasswordResetEmail (email : string) : M Promise :=
  promisify "sendPasswordResetWithEmail" FirebaseAuth (Some "auth/") [AStr email].

Definition deleteUser : M Promise :=
  promisify "deleteUser" FirebaseAuth (Some "auth/") [].

Definition reloadUser : M Promise :=
  promisify "reloadUser" FirebaseAuth (Some "auth/") [].

Definition getToken : M Promise :=
  promisify "getToken" FirebaseAuth (Some "auth/") [].

Definition signOut : M Promise :=
  promisify "signOut" FirebaseAuth (Some "auth/") [].

Definition getCurrentUser : M Promise :=
  promisify "getCurrentUser" FirebaseAuth (Some "auth/") [].

(** The catalog of operations the class exposes, one constructor per
    method with the method's arguments. *)
Inductive Operation : Type :=
  | CreateUserWithEmailAndPassword (email password : string)
  | SignInWithEmailAndPassword (email password : string)
  | UpdateEmail (email : string)
  | SendEmailVerification
  | UpdatePassword (password : string)
  | UpdateProfile (updates : option JsObject)
  | Link (credential : CredentialType)
  | SignInWithCustomToken (customToken : string)
  | SignInWithCredential (credential : CredentialType)
  | ReauthenticateUser (credential : CredentialType)
  | SignInAnonymously
  | SendPasswordResetEmail (email : string)
  | DeleteUser
  | ReloadUser
  | GetToken
  | SignOut
  | GetCurrentUser.

Definition invoke (op : Operation) : M Promise :=
  match op with
  | CreateUserWithEmailAndPassword e p => createUserWithEmailAndPassword e p
  | SignInWithEmailAndPassword e p => signInWithEmailAndPassword e p
  | UpdateEmail e => updateEmail e
  | SendEmailVerification => sendEmailVerification
  | UpdatePassword p => updatePassword p
  | UpdateProfile u => updateProfile u
  | Link c => link c
  | SignInWithCustomToken t => signInWithCustomToken t
  | SignInWithCredential c => signInWithCredential c
  | ReauthenticateUser c => reauthenticateUser c
  | SignInAnonymously => signInAnonymously
  | SendPasswordResetEmail e => sendPasswordResetEmail e
  | DeleteUser => deleteUser
  | ReloadUser => reloadUser
  | GetToken => getToken
  | SignOut => signOut
  | GetCurrentUser => getCurrentUser
  end.

(** What may happen to an [Auth] instance: the bridge delivers an event,
    the application subscribes a listener, calls the function a
    subscription of that listener returned, or calls an operation. *)
Inductive Action : Type :=
  | Event (auth : option AuthResultType)
  | Subscribe (listener : Listener)
  | Cancel (listener : Listener)
  | Call (op : Operation).

(** An exception of the handler goes to the native emitter that called
    it; the instance stays as the handler left it. *)
Definition step (w : World) (a : Action) : World :=
  match a with
  | Event auth => exec (_onAuthStateChanged auth) w
  | Subscribe l => exec (onAuthStateChanged l) w
  | Cancel l => exec (unsubscribe {| bound_listener := l |}) w
  | Call op => exec (invoke op) w
  end.

Definition run (acts : list Action) (w : World) : World :=
  fold_left step acts w.

End Forwarding.

(** The events among the actions, and the most recent of them. *)
Definition event_of (a : Action) : option (option AuthResultType) :=
  match a with
  | Event auth => Some auth
  | _ => None
  end.

Definition last_event (acts : list Action) : option (option AuthResultType) :=
  last (omap event_of acts).

(** The listeners registered after the actions, in the order in which
    they were registered: a subscription puts a listener that is not
    registered last, a cancellation takes the listener out. *)
Definition registration_order (acts : list Action) : list Listener :=
  fold_left
    (fun ls a =>
       match a with
       | Subscribe l => if bool_decide (l ∈ ls) then ls else ls ++ [l]
       | Cancel l => filter (fun k => k ≠ l) ls
       | _ => ls
       end)
    acts [].

(** The bridge delivers the events one after the other; the handler runs
    to its end, or to its exception, before the next event. *)
Definition deliver (evs : list (option AuthResultType)) (w : World) : World :=
  fold_left (fun w auth => exec (_onAuthStateChanged auth) w) evs w.

(** The bridge of the scenarios: it rejects every call with
    [auth/wrong-password]. *)
Definition wrong_password : NativeError :=
  {| code := "auth/wrong-password"; message := "The password is invalid." |}.
Definition rejecting_bridge : NativeModule := fun _ _ => Failure wrong_password.

(** The event [{authenticated: false, user: {id: "u1"}}]. *)
Definition signed_out_with_user : option AuthResultType :=
  Some (AuthResult.mk (Some false) (Some [("id", "u1")])).

(** The events of the sign-in scenario:
    [{authenticated: true, user: {id: "u1", email: "a@example.com"}}] and
    [{authenticated: false}]. *)
Definition signed_in_u1 : option AuthResultType :=
  Some (AuthResult.mk (Some true)
          (Some [("id", "u1"); ("email", "a@example.com")])).
Definition signed_out : option AuthResultType :=
  Some (AuthResult.mk (Some false) None).

(** The operations among the actions. *)
Definition operation_of (a : Action) : option Operation :=
  match a with
  | Call op => Some op
  | _ => None
  end.

(** What an operation sends to the bridge when it is called on a fresh
    instance. *)
Definition request (bridge : NativeModule) (op : Operation) : list NativeCall :=
  native (exec (invoke bridge op) constructor).

(** What the listeners [ls] hear of one event: nothing of a null payload,
    the user (or null) of any other, each listener in turn. *)
Definition heard (ls : list Listener) (auth : option AuthResultType)
    : list Notification :=
  match auth with
  | Some a => map (fun l => (l, AuthResult.user a)) ls
  | None => []
  end.

(** * Properties *)

Ltac unfold_M :=
  unfold exec, completion, _onAuthStateChanged, onAuthStateChanged,
    unsubscribe, _offAuthStateChanged, new_User, _updateValues, emit,
    call_listener, on, removeListener, log_info, bind, modify, get, ret,
    throw in *.

Ltac unfold_ops :=
  unfold invoke, createUserWithEmailAndPassword, signInWithEmailAndPassword,
    updateEmail, sendEmailVerification, updatePassword, updateProfile, link,
    signInWithCustomToken, signInWithCredential, reauthenticateUser,
    signInAnonymously, sendPasswordResetEmail, deleteUser, reloadUser,
    getToken, signOut, getCurrentUser, promisify in *.

(** ** The handler, field by field *)

Lemma handler_authResult auth w :
  _authResult (exec (_onAuthStateChanged auth) w) = auth.
Proof. unfold_M; simpl. repeat case_match; simplify_eq/=; done. Qed.

Lemma handler_authenticated auth w :
  authenticated (exec (_onAuthStateChanged auth) w) =
  match auth with
  | Some a => or_false (AuthResult.authenticated a)
  | None => false
  end.
Proof. unfold_M; simpl. repeat case_match; simplify_eq/=; done. Qed.

Lemma handler_user auth w :
  _user (exec (_onAuthStateChanged auth) w) =
  if has_user auth then
    match _user w with
    | Some p => Some p
    | None => Some (fresh (dom (users w)))
    end
  else None.
Proof.
  unfold_M; simpl.
  destruct (has_user auth) eqn:Hu, (_user w) as [p|] eqn:Hp; simpl;
    repeat case_match; simplify_eq/=; try done.
Qed.

Lemma handler_users auth w :
  users (exec (_onAuthStateChanged auth) w) =
  if has_user auth then
    match _user w with
    | Some p => alter (fun u => User_updateValues u auth) p (users w)
    | None => <[fresh (dom (users w)) := User_new auth]> (users w)
    end
  else users w.
Proof.
  unfold_M; simpl.
  destruct (has_user auth) eqn:Hu, (_user w) as [p|] eqn:Hp; simpl;
    repeat case_match; simplify_eq/=; try done.
Qed.

Lemma handler_listeners auth w :
  _listeners (exec (_onAuthStateChanged auth) w) = _listeners w.
Proof.
  unfold_M; simpl.
  destruct (has_user auth), (_user w); simpl;
    repeat case_match; simplify_eq/=; done.
Qed.

Lemma handler_native auth w :
  native (exec (_onAuthStateChanged auth) w) = native w.
Proof.
  unfold_M; simpl.
  destruct (has_user auth), (_user w); simpl;
    repeat case_match; simplify_eq/=; done.
Qed.

Lemma handler_notified auth w :
  notified (exec (_onAuthStateChanged auth) w) =
  notified w ++
  match auth with
  | Some a =>
      map (fun l => (l, AuthResult.user a)) (listeners_of "onAuthStateChanged" w)
  | None => []
  end.
Proof.
  unfold_M; unfold listeners_of; simpl.
  destruct auth as [a|]; [|rewrite app_nil_r];
    destruct (has_user _), (_user w); simpl;
    repeat case_match; simplify_eq/=; done.
Qed.

Lemma handler_completion auth w :
  completion (_onAuthStateChanged auth) w =
  match auth with
  | Some _ => Normal tt
  | None => Throw (TypeError "Cannot read property 'user' of null")
  end.
Proof.
  unfold_M; simpl.
  destruct auth as [a|]; destruct (has_user _), (_user w); simpl;
    repeat case_match; simplify_eq/=; done.
Qed.

(** ** Subscribing and cancelling *)

Lemma subscribe_fields l w :
  let w' := exec (onAuthStateChanged l) w in
  _user w' = _user w ∧ _authResult w' = _authResult w ∧
  authenticated w' = authenticated w ∧ users w' = users w ∧
  native w' = native w.
Proof. unfold_M; simpl. repeat case_match; simplify_eq/=; done. Qed.

Lemma subscribe_listeners l w :
  listeners_of "onAuthStateChanged" (exec (onAuthStateChanged l) w) =
  let ls := listeners_of "onAuthStateChanged" w in
  if bool_decide (l ∈ ls) then ls else ls ++ [l].
Proof.
  unfold_M; unfold listeners_of; simpl.
  repeat case_match; simplify_eq/=; try done;
    rewrite lookup_insert_eq in *; simplify_eq/=; done.
Qed.

Lemma subscribe_notified l w :
  notified (exec (onAuthStateChanged l) w) =
  notified w ++
  match _authResult w with
  | Some r => [(l, AuthResult.user r)]
  | None => []
  end.
Proof.
  unfold_M; simpl.
  repeat case_match; simplify_eq/=; try done; by rewrite app_nil_r.
Qed.

Lemma subscribe_completion l w :
  completion (onAuthStateChanged l) w = Normal {| bound_listener := l |}.
Proof. unfold_M; simpl. repeat case_match; simplify_eq/=; done. Qed.

Lemma cancel_fields l w :
  let w' := exec (_offAuthStateChanged l) w in
  _user w' = _user w ∧ _authResult w' = _authResult w ∧
  authenticated w' = authenticated w ∧ users w' = users w ∧
  native w' = native w ∧ notified w' = notified w.
Proof. unfold_M; simpl. done. Qed.

Lemma cancel_listeners l w :
  listeners_of "onAuthStateChanged" (exec (_offAuthStateChanged l) w) =
  filter (fun k => k ≠ l) (listeners_of "onAuthStateChanged" w).
Proof.
  unfold_M; unfold listeners_of; simpl. by rewrite lookup_insert_eq.
Qed.

(** ** The operations *)

Lemma invoke_fields bridge op w :
  let w' := exec (invoke bridge op) w in
  _user w' = _user w ∧ _authResult w' = _authResult w ∧
  authenticated w' = authenticated w ∧ users w' = users w ∧
  _listeners w' = _listeners w ∧ notified w' = notified w.
Proof. destruct op; unfold_ops; unfold_M; simpl; done. Qed.

(** ** Runs *)

Section Runs.

Variable bridge : NativeModule.

(** Only an event touches the cache and the store. *)
Lemma step_cache w a :
  event_of a = None →
  let w' := step bridge w a in
  _user w' = _user w ∧ _authResult w' = _authResult w ∧
  authenticated w' = authenticated w ∧ users w' = users w.
Proof.
  destruct a as [auth|l|l|op]; [done| | |]; intros _; unfold step.
  - destruct (subscribe_fields l w) as (? & ? & ? & ? & ?). done.
  - destruct (cancel_fields l w) as (? & ? & ? & ? & ?). done.
  - destruct (invoke_fields bridge op w) as (? & ? & ? & ? & ?). done.
Qed.

Lemma run_snoc acts a w :
  run bridge (acts ++ [a]) w = step bridge (run bridge acts w) a.
Proof. unfold run. by rewrite fold_left_app. Qed.

Lemma last_event_snoc acts a :
  last_event (acts ++ [a]) =
  match event_of a with
  | Some auth => Some auth
  | None => last_event acts
  end.
Proof.
  unfold last_event. rewrite omap_app. destruct a; simpl;
    rewrite ?app_nil_r, ?last_snoc; done.
Qed.

Lemma registration_order_snoc acts a :
  registration_order (acts ++ [a]) =
  let ls := registration_order acts in
  match a with
  | Subscribe l => if bool_decide (l ∈ ls) then ls else ls ++ [l]
  | Cancel l => filter (fun k => k ≠ l) ls
  | _ => ls
  end.
Proof. unfold registration_order. by rewrite fold_left_app. Qed.

(** The cached state is the payload of the most recent event. *)
Lemma run_authResult acts :
  _authResult (run bridge acts constructor) =
  match last_event acts with
  | Some auth => auth
  | None => None
  end.
Proof.
  induction acts as [|a acts IH] using rev_ind; [done|].
  rewrite run_snoc, last_event_snoc.
  destruct (event_of a) as [auth|] eqn:Ha.
  - destruct a; simplify_eq/=. apply handler_authResult.
  - rewrite <- IH. by apply step_cache.
Qed.

Lemma run_authenticated acts :
  authenticated (run bridge acts constructor) =
  match last_event acts with
  | Some (Some a) => or_false (AuthResult.authenticated a)
  | _ => false
  end.
Proof.
  induction acts as [|a acts IH] using rev_ind; [done|].
  rewrite run_snoc, last_event_snoc.
  destruct (event_of a) as [auth|] eqn:Ha.
  - destruct a; simplify_eq/=. apply handler_authenticated.
  - rewrite <- IH. by apply step_cache.
Qed.

(** A handle is cached exactly when the most recent event carried a
    user. *)
Lemma run_user acts :
  bool_decide (is_Some (_user (run bridge acts constructor))) =
  match last_event acts with
  | Some auth => has_user auth
  | None => false
  end.
Proof.
  induction acts as [|a acts IH] using rev_ind; [done|].
  rewrite run_snoc, last_event_snoc.
  destruct (event_of a) as [auth|] eqn:Ha.
  - destruct a; simplify_eq/=. rewrite handler_user.
    destruct (has_user auth); [|done]. destruct (_user _); done.
  - rewrite <- IH.
    destruct (step_cache (run bridge acts constructor) a Ha) as (-> & _).
    done.
Qed.

(** The cached handle is an object of the store. *)
Lemma run_user_allocated acts p :
  _user (run bridge acts constructor) = Some p →
  is_Some (users (run bridge acts constructor) !! p).
Proof.
  revert p. induction acts as [|a acts IH] using rev_ind; [done|].
  intros p. rewrite run_snoc.
  destruct (event_of a) as [auth|] eqn:Ha.
  - destruct a; simplify_eq/=. rewrite handler_user, handler_users.
    destruct (has_user auth); [|done].
    destruct (_user (run bridge acts constructor)) as [q|] eqn:Hq.
    + intros [= <-]. rewrite lookup_alter_eq.
      destruct (IH q eq_refl) as [u ->]. by eexists.
    + intros [= <-]. rewrite lookup_insert_eq. by eexists.
  - destruct (step_cache (run bridge acts constructor) a Ha)
      as (-> & _ & _ & ->). apply IH.
Qed.

(** The registry holds the listeners in registration order, each once. *)
Lemma run_listeners acts :
  listeners_of "onAuthStateChanged" (run bridge acts constructor) =
  registration_order acts.
Proof.
  induction acts as [|a acts IH] using rev_ind; [done|].
  rewrite run_snoc, registration_order_snoc.
  destruct a as [auth|l|l|op]; unfold step.
  - rewrite <- IH. unfold listeners_of. by rewrite handler_listeners.
  - rewrite subscribe_listeners. by rewrite IH.
  - unfold unsubscribe; simpl bound_listener.
    rewrite cancel_listeners. by rewrite IH.
  - rewrite <- IH. unfold listeners_of.
    by destruct (invoke_fields bridge op (run bridge acts constructor))
      as (_ & _ & _ & _ & -> & _).
Qed.

Lemma registration_order_NoDup acts : NoDup (registration_order acts).
Proof.
  induction acts as [|a acts IH] using rev_ind; [constructor|].
  rewrite registration_order_snoc. destruct a as [auth|l|l|op]; simpl; try done.
  - case_bool_decide as Hl; [done|].
    apply NoDup_app. split_and!; [done| |apply NoDup_singleton].
    intros k Hk ->%list_elem_of_singleton. done.
  - by apply NoDup_filter.
Qed.

End Runs.

Lemma deliver_run bridge evs w :
  deliver evs w = run bridge (Event <$> evs) w.
Proof.
  revert w. induction evs as [|auth evs IH]; intros w; [done|].
  simpl. apply IH.
Qed.

Lemma last_event_events evs : last_event (Event <$> evs) = last evs.
Proof.
  unfold last_event. f_equal.
  induction evs as [|auth evs IH]; [done|]. simpl. by f_equal.
Qed.

Lemma has_user_spec auth :
  has_user auth = true ↔
  ∃ a u, auth = Some a ∧ AuthResult.user a = Some u.
Proof.
  destruct auth as [[flag [u|]]|]; simpl; split; try done.
  - intros _. by eexists _, _.
  - by intros (a & u & [= <-] & H).
  - by intros (a & u & H & _).
Qed.

(** * The claims *)

(** The sign-in scenario with one listener: after the first event
    [currentUser] is a handle whose record has id ["u1"]; after the second
    it is absent and the listener was called with null. *)
Example scenario_sign_in_then_out :
  let w1 := exec (onAuthStateChanged 7) constructor in
  let w2 := deliver [signed_in_u1] w1 in
  let w3 := deliver [signed_out] w2 in
  (p ← currentUser w2; u ← users w2 !! p; a ← _authObj u;
   r ← AuthResult.user a; r.*2 !! 0) = Some "u1" ∧
  currentUser w3 = None ∧
  last (notified w3) = Some (7, None).
Proof. vm_compute. done. Qed.

(** C1, as the specification words it, fails: after the one event
    [{authenticated: false, user: {id: "u1"}}] a handle is cached although
    the event did not have [authenticated: true]. *)
Lemma C1_handle_despite_unauthenticated :
  ¬ (currentUser (deliver [signed_out_with_user] constructor) ≠ None ↔
     ∃ a u, last [signed_out_with_user] = Some (Some a) ∧
            AuthResult.authenticated a = Some true ∧
            AuthResult.user a = Some u).
Proof.
  intros [H _]. destruct H as (a & u & Ha & Hflag & _).
  - vm_compute. discriminate.
  - unfold signed_out_with_user in Ha. simplify_eq/=.
Qed.

(** C1 (amended): for every sequence of bridge events, the handle that
    [currentUser] returns is non-absent if and only if the most recent
    event was a payload with a non-absent user, whatever its
    [authenticated] flag. *)
Theorem C1_currentUser_iff_last_event_has_user
    (evs : list (option AuthResultType)) :
  currentUser (deliver evs constructor) ≠ None ↔
  ∃ a u, last evs = Some (Some a) ∧ AuthResult.user a = Some u.
Proof.
  unfold currentUser.
  rewrite (deliver_run rejecting_bridge).
  pose proof (run_user rejecting_bridge (Event <$> evs)) as H.
  rewrite last_event_events in H.
  destruct (_user _) as [p|], (last evs) as [auth|]; simpl in H.
  - split; [intros _|done].
    symmetry in H. apply has_user_spec in H as (a & u & -> & Hu).
    by exists a, u.
  - discriminate.
  - split; [done|]. intros (a & u & [= ->] & Hu).
    assert (has_user (Some a) = true) as Ht
      by (apply has_user_spec; by exists a, u).
    congruence.
  - split; [done|]. by intros (a & u & ? & _).
Qed.

(** C2: at any state the instance can reach, the single field [_user]
    holds the one cached handle, and an event changes it in one of four
    ways.  From no handle to a user payload, a new object is allocated at
    an address the store did not have; from a handle to an event without
    user, the field becomes absent and the store is untouched; with a
    handle and a user payload, the field keeps the same address, no object
    is allocated and the object at that address is updated where it is;
    with neither, nothing changes. *)
Theorem C2_single_handle_lifecycle
    (bridge : NativeModule) (acts : list Action) (auth : option AuthResultType) :
  let w := run bridge acts constructor in
  let w' := exec (_onAuthStateChanged auth) w in
  match _user w, has_user auth with
  | None, true =>
      ∃ p, _user w' = Some p ∧ users w !! p = None ∧
           users w' = <[p := User_new auth]> (users w)
  | Some p, true =>
      ∃ u, users w !! p = Some u ∧ _user w' = Some p ∧
           dom (users w') = dom (users w) ∧
           users w' = <[p := User_updateValues u auth]> (users w)
  | Some p, false => _user w' = None ∧ users w' = users w
  | None, false => _user w' = None ∧ users w' = users w
  end.
Proof.
  intros w w'. subst w'.
  rewrite handler_user, handler_users.
  destruct (_user w) as [p|] eqn:Hp, (has_user auth); try done.
  - destruct (run_user_allocated bridge acts p Hp) as [u Hu].
    fold w in Hu. exists u. split_and!; try done.
    + apply set_eq. intros q. rewrite !elem_of_dom.
      rewrite lookup_alter. case_decide; [subst; rewrite Hu|]; done.
    + apply map_eq. intros q. rewrite lookup_alter, lookup_insert.
      case_decide; [subst; rewrite Hu|]; done.
  - eexists. split_and!; try done.
    apply not_elem_of_dom. apply is_fresh.
Qed.

(** C9: on a null payload the handler throws a [TypeError] and no
    listener is called; before that it has stored the null state, set
    [authenticated] to false and cleared the handle.  On a payload that is
    an object it returns normally. *)
Theorem C9_null_event_throws (w : World) :
  let w' := exec (_onAuthStateChanged None) w in
  completion (_onAuthStateChanged None) w
    = Throw (TypeError "Cannot read property 'user' of null") ∧
  notified w' = notified w ∧
  _authResult w' = None ∧ authenticated w' = false ∧ _user w' = None ∧
  ∀ a, completion (_onAuthStateChanged (Some a)) w = Normal tt.
Proof.
  simpl. rewrite handler_completion, handler_notified, handler_authResult,
    handler_authenticated, handler_user, app_nil_r.
  split_and!; try done. intros a. by rewrite handler_completion.
Qed.

(** C10: after construction [authenticated] is false, and after any
    activity it is the boolean value of the flag of the most recent
    event: the flag itself when it is a boolean, false when the flag is
    absent, when the payload was null or when there was no event. *)
Theorem C10_authenticated_is_last_flag
    (bridge : NativeModule) (acts : list Action) :
  authenticated constructor = false ∧
  authenticated (run bridge acts constructor) =
  match last_event acts with
  | Some (Some a) =>
      match AuthResult.authenticated a with
      | Some b => b
      | None => false
      end
  | _ => false
  end.
Proof. split; [done|]. apply run_authenticated. Qed.

Lemma deliver_listeners evs w :
  listeners_of "onAuthStateChanged" (deliver evs w) =
  listeners_of "onAuthStateChanged" w.
Proof.
  revert w. induction evs as [|auth evs IH]; intros w; [done|].
  simpl. rewrite IH. unfold listeners_of. by rewrite handler_listeners.
Qed.

(** Events call registered listeners only. *)
Lemma deliver_notified evs w :
  ∃ new, notified (deliver evs w) = notified w ++ new ∧
         ∀ k arg, (k, arg) ∈ new → k ∈ listeners_of "onAuthStateChanged" w.
Proof.
  revert w. induction evs as [|auth evs IH]; intros w.
  - exists []. split; [by rewrite app_nil_r|]. by intros k arg ?%elem_of_nil.
  - simpl. destruct (IH (exec (_onAuthStateChanged auth) w)) as (new & -> & Hnew).
    rewrite handler_notified, <- app_assoc. eexists. split; [done|].
    intros k arg [Hin|Hin]%elem_of_app.
    + destruct auth as [a|]; [|by apply elem_of_nil in Hin].
      apply list_elem_of_fmap in Hin as (k' & [= -> ->] & Hk). done.
    + apply Hnew in Hin. unfold listeners_of in *.
      by rewrite handler_listeners in Hin.
Qed.

(** C3: [onAuthStateChanged(listener)] returns the unsubscribe function
    bound to the listener and leaves the listener registered, so that the
    next event calls it, once, with the others; during the registration
    the listener is called exactly once with the cached user (or null)
    when a state is cached, and not at all when none is.  Calling the
    returned function takes the listener out of the registry. *)
Theorem C3_subscribe_replays_cached_state
    (bridge : NativeModule) (acts : list Action) (l : Listener) :
  let w := run bridge acts constructor in
  let w' := exec (onAuthStateChanged l) w in
  let registered := listeners_of "onAuthStateChanged" w' in
  completion (onAuthStateChanged l) w = Normal {| bound_listener := l |} ∧
  notified w' =
    notified w ++
    match _authResult w with
    | Some r => [(l, AuthResult.user r)]
    | None => []
    end ∧
  l ∈ registered ∧ NoDup registered ∧
  (∀ a, notified (exec (_onAuthStateChanged (Some a)) w') =
        notified w' ++ map (fun k => (k, AuthResult.user a)) registered) ∧
  l ∉ listeners_of "onAuthStateChanged"
        (exec (unsubscribe {| bound_listener := l |}) w').
Proof.
  intros w w' registered.
  assert (w' = run bridge (acts ++ [Subscribe l]) constructor) as Hw'
    by (by rewrite run_snoc).
  assert (registered = registration_order (acts ++ [Subscribe l])) as Hreg
    by (unfold registered; rewrite Hw'; apply run_listeners).
  split_and!.
  - apply subscribe_completion.
  - apply subscribe_notified.
  - unfold registered, w'. rewrite subscribe_listeners. simpl.
    case_bool_decide; [done|]. apply elem_of_app. right.
    by apply list_elem_of_singleton.
  - rewrite Hreg. apply registration_order_NoDup.
  - intros a. by rewrite handler_notified.
  - unfold unsubscribe; simpl bound_listener. rewrite cancel_listeners.
    intros [Hne _]%list_elem_of_filter. done.
Qed.

(** C4: once the function returned by [onAuthStateChanged(listener)] has
    been called, whatever happened in between, no event of any sequence
    that follows calls the listener. *)
Theorem C4_unsubscribed_listener_is_silent
    (bridge : NativeModule) (w : World) (l : Listener)
    (between : list Action) (evs : list (option AuthResultType)) :
  match completion (onAuthStateChanged l) w with
  | Normal u =>
      let w1 := run bridge between (exec (onAuthStateChanged l) w) in
      let w2 := exec (unsubscribe u) w1 in
      ∃ new, notified (deliver evs w2) = notified w2 ++ new ∧
             ∀ arg, (l, arg) ∉ new
  | Throw _ => False
  end.
Proof.
  rewrite subscribe_completion. simpl.
  destruct (deliver_notified evs
              (exec (unsubscribe {| bound_listener := l |})
                 (run bridge between (exec (onAuthStateChanged l) w))))
    as (new & Hnew & Hreg).
  exists new. split; [done|]. intros arg Hin. apply Hreg in Hin.
  unfold unsubscribe in Hin; simpl bound_listener in Hin.
  rewrite cancel_listeners in Hin.
  apply list_elem_of_filter in Hin as [Hne _]. done.
Qed.

(** C5: an event whose payload is an object is handled to the end and
    calls each registered listener exactly once, in the order in which
    the listeners were registered, all with the same argument: the user
    of the event, or null. *)
Theorem C5_event_notifies_each_listener_once_in_order
    (bridge : NativeModule) (acts : list Action) (a : AuthResultType) :
  let w := run bridge acts constructor in
  let w' := exec (_onAuthStateChanged (Some a)) w in
  completion (_onAuthStateChanged (Some a)) w = Normal tt ∧
  notified w' =
    notified w ++ map (fun l => (l, AuthResult.user a)) (registration_order acts) ∧
  NoDup (registration_order acts) ∧
  listeners_of "onAuthStateChanged" w = registration_order acts.
Proof.
  intros w w'. split_and!.
  - apply handler_completion.
  - unfold w'. rewrite handler_notified. unfold w. by rewrite run_listeners.
  - apply registration_order_NoDup.
  - apply run_listeners.
Qed.

(** ** Forwarding *)

(** Every operation is one call into the bridge, and its promise is the
    bridge's reply to that call. *)
Lemma invoke_forwards bridge op w :
  ∃ c, native (exec (invoke bridge op) w) = native w ++ [c] ∧
       native (exec (invoke bridge op) constructor) = [c] ∧
       completion (invoke bridge op) w =
       Normal (match bridge (fn c) (args c) with
               | Success resp => Resolved resp
               | Failure err => Rejected err
               end).
Proof. destruct op; unfold_ops; unfold_M; simpl; by eexists. Qed.

(** C6: whatever failure the bridge reports for the call an operation
    forwards, the promise of the operation rejects with that very error,
    and the bridge was called once. *)
Theorem C6_bridge_failure_rejects_unchanged
    (bridge : NativeModule) (op : Operation) (w : World)
    (c : NativeCall) (err : NativeError) :
  last (native (exec (invoke bridge op) w)) = Some c →
  bridge (fn c) (args c) = Failure err →
  completion (invoke bridge op) w = Normal (Rejected err) ∧
  native (exec (invoke bridge op) w) = native w ++ [c].
Proof.
  intros Hlast Hfail.
  destruct (invoke_forwards bridge op w) as (c' & Hnative & _ & Hpromise).
  rewrite Hnative, last_snoc in Hlast. simplify_eq.
  by rewrite Hpromise, Hfail.
Qed.

(** The scenario of C6: [signInWithEmailAndPassword("a@example.com", "bad")]
    against a bridge that rejects with [auth/wrong-password]. *)
Lemma C6_wrong_password_scenario :
  completion
    (signInWithEmailAndPassword rejecting_bridge "a@example.com" "bad")
    constructor
  = Normal (Rejected {| code := "auth/wrong-password";
                        message := "The password is invalid." |}).
Proof.
  apply (C6_bridge_failure_rejects_unchanged rejecting_bridge
           (SignInWithEmailAndPassword "a@example.com" "bad") constructor
           {| fn := "signInWithEmail"; errorPrefix := Some "auth/";
              args := [AStr "a@example.com"; AStr "bad"] |}
           wrong_password);
    reflexivity.
Defined.

(** C7: the call of [signInWithCustomToken] carries no error prefix,
    while the call of every other operation carries ["auth/"]. *)
Theorem C7_signInWithCustomToken_omits_error_prefix
    (bridge : NativeModule) (op : Operation) (w : World) :
  errorPrefix <$> last (native (exec (invoke bridge op) w)) =
  Some (match op with
        | SignInWithCustomToken _ => None
        | _ => Some "auth/"
        end).
Proof.
  destruct op; unfold_ops; unfold_M; simpl; by rewrite last_snoc.
Qed.

(** C8: an operation leaves [_user], [_authResult] and [authenticated]
    as they were, and checks nothing locally: in every state it makes the
    one call it makes on a fresh instance, where no user is cached, and
    returns the promise of that call without throwing. *)
Theorem C8_operations_leave_cache_and_forward
    (bridge : NativeModule) (op : Operation) (w : World) :
  let w' := exec (invoke bridge op) w in
  _user w' = _user w ∧ _authResult w' = _authResult w ∧
  authenticated w' = authenticated w ∧
  (∃ c, native w' = native w ++ [c] ∧
        native (exec (invoke bridge op) constructor) = [c]) ∧
  completion (invoke bridge op) w = completion (invoke bridge op) constructor ∧
  ∃ promise, completion (invoke bridge op) w = Normal promise.
Proof.
  intros w'.
  destruct (invoke_fields bridge op w) as (Hu & Hr & Ha & _).
  destruct (invoke_forwards bridge op w) as (c & Hn & Hc & Hp).
  destruct (invoke_forwards bridge op constructor) as (c0 & _ & Hc0 & Hp0).
  rewrite Hc in Hc0. simplify_eq.
  split_and!; try done.
  - by exists c0.
  - by rewrite Hp, Hp0.
  - by eexists.
Qed.

(** * Further properties of the class *)

(** ** The cache and the store along a run *)

(** The object behind the cached handle holds the cached state. *)
Lemma run_handle_current bridge acts p :
  _user (run bridge acts constructor) = Some p →
  users (run bridge acts constructor) !! p =
  Some (User_new (_authResult (run bridge acts constructor))).
Proof.
  revert p. induction acts as [|a acts IH] using rev_ind; [done|].
  intros p. rewrite run_snoc.
  destruct (event_of a) as [auth|] eqn:Ha.
  - destruct a; simplify_eq/=.
    rewrite handler_user, handler_users, handler_authResult.
    destruct (has_user auth); [|done].
    destruct (_user (run bridge acts constructor)) as [q|] eqn:Hq.
    + intros [= <-]. rewrite lookup_alter_eq, (IH q eq_refl). done.
    + intros [= <-]. by rewrite lookup_insert_eq.
  - destruct (step_cache bridge (run bridge acts constructor) a Ha)
      as (-> & -> & _ & ->). apply IH.
Qed.

(** X1: a listener that subscribes after any activity is called, during
    the subscription, with the user of the most recent event and with
    nothing older; it is not called at all when there was no event yet or
    when the most recent payload was null, even if earlier events had
    been cached. *)
Theorem late_subscriber_gets_latest_state
    (bridge : NativeModule) (acts : list Action) (l : Listener) :
  notified (exec (onAuthStateChanged l) (run bridge acts constructor)) =
  notified (run bridge acts constructor) ++
  match last_event acts with
  | Some (Some a) => [(l, AuthResult.user a)]
  | _ => []
  end.
Proof.
  rewrite subscribe_notified, run_authResult.
  by destruct (last_event acts) as [[a|]|].
Qed.

(** X2: in every state the instance can reach the three fields agree with
    each other and with the store: a handle is cached exactly when the
    cached state carries a user, the object behind the handle holds the
    cached state, and [authenticated] is the flag of the cached state
    (false when the cached state is null). *)
Theorem cache_is_consistent (bridge : NativeModule) (acts : list Action) :
  let w := run bridge acts constructor in
  match currentUser w with
  | Some p =>
      has_user (_authResult w) = true ∧
      users w !! p = Some (User_new (_authResult w))
  | None => has_user (_authResult w) = false
  end ∧
  authenticated w =
  match _authResult w with
  | Some a => or_false (AuthResult.authenticated a)
  | None => false
  end.
Proof.
  intros w. unfold currentUser. subst w.
  pose proof (run_user bridge acts) as Hu.
  pose proof (run_handle_current bridge acts) as Hobj.
  rewrite run_authenticated, run_authResult in *.
  split.
  - destruct (_user (run bridge acts constructor)) as [p|];
      destruct (last_event acts) as [auth|]; simpl in Hu; try done.
    split; [done|]. by apply Hobj.
  - by destruct (last_event acts) as [[a|]|].
Qed.

Lemma run_app bridge acts1 acts2 w :
  run bridge (acts1 ++ acts2) w = run bridge acts2 (run bridge acts1 w).
Proof. unfold run. by rewrite fold_left_app. Qed.

Lemma deliver_app evs1 evs2 w :
  deliver (evs1 ++ evs2) w = deliver evs2 (deliver evs1 w).
Proof. unfold deliver. by rewrite fold_left_app. Qed.

Lemma deliver_authResult evs w :
  _authResult (deliver evs w) = default (_authResult w) (last evs).
Proof.
  induction evs as [|auth evs IH] using rev_ind; [done|].
  rewrite deliver_app, last_snoc. simpl. apply handler_authResult.
Qed.

(** While the events carry a user, the handle and the set of allocated
    objects stay what they are. *)
Lemma deliver_handle_stable evs w p :
  _user w = Some p → is_Some (users w !! p) →
  forallb has_user evs = true →
  _user (deliver evs w) = Some p ∧ dom (users (deliver evs w)) = dom (users w).
Proof.
  revert w. induction evs as [|auth evs IH]; intros w Hp Hin Hall; [done|].
  simpl in Hall. apply andb_prop in Hall as [Hauth Hall]. simpl.
  assert (users (exec (_onAuthStateChanged auth) w)
          = alter (fun u => User_updateValues u auth) p (users w)) as Hus
    by (by rewrite handler_users, Hauth, Hp).
  assert (dom (users (exec (_onAuthStateChanged auth) w)) = dom (users w))
    as Hdom.
  { rewrite Hus. apply set_eq. intros q. rewrite !elem_of_dom, lookup_alter.
    case_decide; [subst|done]. destruct Hin as [u ->]. split; by eexists. }
  destruct (IH (exec (_onAuthStateChanged auth) w)) as [Hu Hd]; try done.
  - by rewrite handler_user, Hauth, Hp.
  - apply elem_of_dom. rewrite Hdom. by apply elem_of_dom.
  - split; [done|]. by rewrite Hd.
Qed.

(** X3: while every event carries a user, [currentUser] keeps returning
    the same handle, no object is allocated, and the object behind the
    handle holds the most recent event: a reference the application took
    earlier sees the latest state. *)
Theorem handle_stable_while_user_persists
    (bridge : NativeModule) (acts : list Action) (p : loc)
    (evs : list (option AuthResultType)) :
  let w := run bridge acts constructor in
  currentUser w = Some p →
  forallb has_user evs = true →
  currentUser (deliver evs w) = Some p ∧
  dom (users (deliver evs w)) = dom (users w) ∧
  users (deliver evs w) !! p =
    Some (User_new (default (_authResult w) (last evs))).
Proof.
  intros w Hp Hall. unfold currentUser in *.
  destruct (deliver_handle_stable evs w p) as [Hu Hd]; try done.
  { by apply run_user_allocated. }
  split_and!; try done.
  rewrite <- deliver_authResult.
  unfold w in *. rewrite (deliver_run bridge), <- run_app in *.
  by apply run_handle_current.
Qed.

Lemma handle_stable_while_user_persists_witness :
  users (deliver [signed_in_u1; signed_out_with_user]
           (run rejecting_bridge [Event signed_in_u1] constructor)) !! 0
  = Some (User_new signed_out_with_user).
Proof.
  apply (handle_stable_while_user_persists rejecting_bridge
           [Event signed_in_u1] 0 [signed_in_u1; signed_out_with_user]);
    reflexivity.
Defined.

(** X5: an event changes no object of the store but the one behind the
    cached handle, and removes none: a handle the application kept from an
    earlier sign-in is left as it was. *)
Theorem event_touches_only_cached_object
    (w : World) (auth : option AuthResultType) (q : loc) :
  currentUser w ≠ Some q →
  is_Some (users w !! q) →
  users (exec (_onAuthStateChanged auth) w) !! q = users w !! q ∧
  dom (users w) ⊆ dom (users (exec (_onAuthStateChanged auth) w)).
Proof.
  unfold currentUser. intros Hq Hin. rewrite handler_users.
  destruct (has_user auth); [|done].
  destruct (_user w) as [p|].
  - split.
    + rewrite lookup_alter_ne; [done|]. by intros ->.
    + intros k. rewrite !elem_of_dom, lookup_alter. case_decide; [subst|done].
      intros [u ->]. by eexists.
  - split.
    + rewrite lookup_insert_ne; [done|]. intros <-.
      apply elem_of_dom in Hin. by apply is_fresh in Hin.
    + rewrite dom_insert_L. set_solver.
Qed.

Lemma event_touches_only_cached_object_witness :
  users (exec (_onAuthStateChanged signed_in_u1)
           (deliver [signed_in_u1; signed_out] constructor)) !! 0
  = users (deliver [signed_in_u1; signed_out] constructor) !! 0.
Proof.
  apply (event_touches_only_cached_object
           (deliver [signed_in_u1; signed_out] constructor) signed_in_u1 0).
  - vm_compute. discriminate.
  - vm_compute. eauto.
Defined.

(** X4: after an event without user and then an event with one,
    [currentUser] is a new handle, different from the one cached before;
    the object behind the earlier handle still holds what it held, and
    the new object holds the new event. *)
Theorem new_sign_in_gets_new_handle
    (bridge : NativeModule) (acts : list Action) (p : loc)
    (e_out e_in : option AuthResultType) :
  let w := run bridge acts constructor in
  let w' := deliver [e_out; e_in] w in
  currentUser w = Some p →
  has_user e_out = false →
  has_user e_in = true →
  ∃ q, currentUser w' = Some q ∧ q ≠ p ∧
       users w' !! p = users w !! p ∧
       users w' !! q = Some (User_new e_in).
Proof.
  intros w w' Hp Hout Hin. unfold currentUser in *. subst w'. simpl.
  pose proof (run_user_allocated bridge acts p Hp) as Halloc. fold w in Halloc.
  rewrite handler_user, !handler_users, handler_user, Hin, Hout.
  exists (fresh (dom (users w))). split_and!; [done| | |].
  - intros <-. apply elem_of_dom in Halloc. by apply is_fresh in Halloc.
  - rewrite lookup_insert_ne; [done|]. intros <-.
    apply elem_of_dom in Halloc. by apply is_fresh in Halloc.
  - by rewrite lookup_insert_eq.
Qed.

Lemma new_sign_in_gets_new_handle_witness :
  ∃ q, currentUser (deliver [signed_out; signed_in_u1]
                      (run rejecting_bridge [Event signed_in_u1] constructor))
       = Some q ∧ q ≠ 0.
Proof.
  destruct (new_sign_in_gets_new_handle rejecting_bridge
              [Event signed_in_u1] 0 signed_out signed_in_u1)
    as (q & Hq & Hne & _); try reflexivity.
  by exists q.
Defined.

(** ** Operations, events and subscriptions side by side *)

(** X6: over any activity, the bridge receives exactly the requests of
    the operations that were called, one per operation and in the order
    of the calls; events, subscriptions and cancellations send nothing. *)
Theorem bridge_sees_operations_in_order
    (bridge : NativeModule) (acts : list Action) (w : World) :
  native (run bridge acts w) =
    native w ++ flat_map (request bridge) (omap operation_of acts) ∧
  length (native (run bridge acts w)) =
    length (native w) + length (omap operation_of acts).
Proof.
  induction acts as [|a acts [IH IHlen]] using rev_ind.
  - simpl. by rewrite app_nil_r, Nat.add_0_r.
  - rewrite run_snoc, omap_app, flat_map_app, length_app, app_assoc, <- IH.
    destruct a as [auth|l|l|op]; unfold step; simpl omap; simpl flat_map.
    + rewrite handler_native, app_nil_r. split; [done|]. simpl. lia.
    + destruct (subscribe_fields l (run bridge acts w)) as (_ & _ & _ & _ & ->).
      rewrite app_nil_r. split; [done|]. simpl. lia.
    + unfold unsubscribe; simpl bound_listener.
      destruct (cancel_fields l (run bridge acts w)) as (_ & _ & _ & _ & -> & _).
      rewrite app_nil_r. split; [done|]. simpl. lia.
    + destruct (invoke_forwards bridge op (run bridge acts w))
        as (c & -> & Hc & _).
      unfold request. rewrite Hc, app_nil_r, length_app. simpl.
      split; [done|]. lia.
Qed.

Lemma handler_cache auth w1 w2 :
  _user w1 = _user w2 → users w1 = users w2 →
  let w1' := exec (_onAuthStateChanged auth) w1 in
  let w2' := exec (_onAuthStateChanged auth) w2 in
  _user w1' = _user w2' ∧ _authResult w1' = _authResult w2' ∧
  authenticated w1' = authenticated w2' ∧ users w1' = users w2'.
Proof.
  intros Hu Hs. simpl.
  rewrite !handler_user, !handler_authResult, !handler_authenticated,
    !handler_users, Hu, Hs. done.
Qed.

(** X7: the cache and the store depend on the events alone: after any
    activity, [_user], [_authResult], [authenticated] and the objects of the
    store are what delivering just the events of that activity, in the
    same order, would have made them.  Subscribing, cancelling and calling
    operations in between changes none of them. *)
Theorem cache_depends_only_on_events
    (bridge : NativeModule) (acts : list Action) (w : World) :
  let w1 := run bridge acts w in
  let w2 := deliver (omap event_of acts) w in
  _user w1 = _user w2 ∧ _authResult w1 = _authResult w2 ∧
  authenticated w1 = authenticated w2 ∧ users w1 = users w2.
Proof.
  simpl. induction acts as [|a acts IH] using rev_ind; [done|].
  rewrite run_snoc, omap_app, deliver_app.
  destruct IH as (Hu & Hr & Ha & Hs).
  destruct (event_of a) as [auth|] eqn:Hev.
  - destruct a; simplify_eq/=. by apply handler_cache.
  - assert (omap event_of [a] = []) as -> by (simpl; by rewrite Hev).
    destruct (step_cache bridge (run bridge acts w) a Hev)
      as (-> & -> & -> & ->). done.
Qed.

(** X9: over any sequence of events, every listener registered at the
    start is called once for each event whose payload is an object, in
    the order of the events and, within an event, in registration order;
    a null payload is passed over without a call and does not keep later
    events from being announced. *)
Theorem listeners_hear_every_object_event
    (evs : list (option AuthResultType)) (w : World) :
  notified (deliver evs w) =
  notified w ++ flat_map (heard (listeners_of "onAuthStateChanged" w)) evs.
Proof.
  revert w. induction evs as [|auth evs IH]; intros w.
  - simpl. by rewrite app_nil_r.
  - simpl. rewrite IH, handler_notified, <- app_assoc. f_equal. f_equal.
    unfold listeners_of. by rewrite handler_listeners.
Qed.

(** X8: the request tells the operation: two operations that send the
    same request to the bridge are the same method with the same
    arguments, with one exception, [updateProfile()] and
    [updateProfile({})], which the default argument makes alike. *)
Theorem request_identifies_operation
    (bridge : NativeModule) (op1 op2 : Operation) :
  request bridge op1 = request bridge op2 →
  op1 = op2 ∨
  ∃ u1 u2, op1 = UpdateProfile u1 ∧ op2 = UpdateProfile u2 ∧
           default [] u1 = default [] u2.
Proof.
  unfold request.
  destruct op1, op2; unfold_ops; unfold_M; simpl; intros [=];
    repeat match goal with c : CredentialType |- _ => destruct c end;
    simplify_eq/=; first [by left | right; by eexists _, _].
Qed.

Lemma request_identifies_operation_witness :
  UpdateProfile None = UpdateProfile (Some []) ∨
  ∃ u1 u2, UpdateProfile None = UpdateProfile u1 ∧
           UpdateProfile (Some []) = UpdateProfile u2 ∧
           default [] u1 = default ([] : JsObject) u2.
Proof.
  apply (request_identifies_operation rejecting_bridge
           (UpdateProfile None) (UpdateProfile (Some []))).
  reflexivity.
Defined.
